(** * Aggregate expressions: shorthand parsing, enumeration and application

    A shallow embedding of [lib/aggregate-expression.js] and the properties
    its specification states about it.

    Conventions of the embedding:
    - a JavaScript string is a [string]; template literals and [+] on
      strings are [+:+]; [===] on strings is [bool_decide (_ = _)];
    - a collection of fields (array, or hash visited in key order) is a
      [list Field]; an optional argument or property is an [option];
    - a function that can throw returns a [result]; the code that mutates
      the aggregation builder runs in a state and error monad [M] over a
      store of objects, the builder being passed by reference. *)

From Stdlib Require Import Ascii String.
From stdpp Require Import base option list strings gmap.

(** ** JavaScript strings *)

Module JsString.

(** [s.split(sep)] for a one-character separator: the pieces between the
    separators, in order. There is always a first piece (the whole string
    when it has no separator): the result is that piece, [parts[0]], and
    the list of the pieces after it, [parts[1]], [parts[2]], ... *)
Fixpoint split (sep : ascii) (s : string) : string * list string :=
  match s with
  | EmptyString => (EmptyString, [])
  | String c s' =>
      let '(p, ps) := split sep s' in
      if bool_decide (c = sep) then (EmptyString, p :: ps)
      else (String c p, ps)
  end.

(** Does the character occur in the string? *)
Fixpoint contains (c : ascii) (s : string) : bool :=
  match s with
  | EmptyString => false
  | String c' s' => bool_decide (c' = c) || contains c s'
  end.

End JsString.

Definition colon : ascii := ":"%char.

(** ** Exceptions and results *)

(** [ValidationError] is joi's error for a value that is not one of the
    allowed ones ([any.allowOnly]): it carries the offending value and the
    list of values it was checked against. [ValidationError_empty] is joi's
    error for the empty string ([any.empty]), also a joi [ValidationError]:
    it names no list. [TypeError] is what reading a property of [undefined]
    throws. *)
Inductive exn : Type :=
| ValidationError (value : string) (allowed : list string)
| ValidationError_empty
| TypeError.


Inductive result (A : Type) : Type :=
| Ok (a : A)
| Throw (e : exn).
Arguments Ok {A} a.
Arguments Throw {A} e.

Definition result_bind {A B} (r : result A) (k : A → result B) : result B :=
  match r with
  | Ok a => k a
  | Throw e => Throw e
  end.

Definition is_Ok {A} (r : result A) : Prop := ∃ a, r = Ok a.

(** ** Data model *)

(** A field: [{ name: string, label: string, dataType: string }]. *)
Record Field : Type := mkField {
  name : string;
  label : string;
  dataType : string
}.

Global Instance Field_eq_dec : EqDecision Field.
Proof. solve_decision. Defined.

Definition COUNT : string := "count".
Definition SUM : string := "sum".
Definition AVG : string := "avg".
Definition MAX : string := "max".
Definition MIN : string := "min".

(** ** The lodash functions the module uses *)

Module lodash.
Section Lodash.
Context {A : Type} `{EqDecision A}.

(** [_.difference(array, values)]: the elements of [array] that are not
    in [values], in the order of [array], repetitions kept. *)
Definition difference (array values : list A) : list A :=
  filter (λ x, x ∉ values) array.

(** [_.uniq]: first occurrences only. *)
Fixpoint uniq_from (seen array : list A) : list A :=
  match array with
  | [] => []
  | x :: rest =>
      if decide (x ∈ seen) then uniq_from seen rest
      else x :: uniq_from (x :: seen) rest
  end.

(** [_.intersection(array, values)]: the unique elements of [array]
    that are in [values], in the order of [array]. *)
Definition intersection (array values : list A) : list A :=
  uniq_from [] (filter (λ x, x ∈ values) array).
End Lodash.

(** [_.find(fields, { name: n })]: the first field whose [name] is [n].
    [n] is [parts[1]], which is [undefined] when the string has no
    colon; a field's name is a string, never [undefined], so no field
    matches and the result is [undefined]. *)
Definition find_by_name (fields : list Field) (n : option string)
  : option Field :=
  match n with
  | Some n => snd <$> list_find (λ f, name f = n) fields
  | None => None
  end.

(** [_.filter(fields, { dataType: t })]. *)
Definition filter_by_dataType (t : string) (fields : list Field)
  : list Field :=
  filter (λ f, dataType f = t) fields.
End lodash.

(** ** joi *)

Module joi.
(** [joi.assert(expr, joi.string().valid(allowed))] for a string [expr],
    in the order of joi's checks: it passes when [expr] is one of [allowed]
    (exact, case-sensitive); otherwise the empty string, which
    [joi.string()] does not allow, is refused as empty, before the list is
    looked at again; any other string is refused as not one of
    [allowed]. *)
Definition assert_string_valid (expr : string) (allowed : list string)
  : result unit :=
  if bool_decide (expr ∈ allowed) then Ok tt
  else if bool_decide (expr = "") then Throw ValidationError_empty
  else Throw (ValidationError expr allowed).
End joi.

(** ** [internals.valids] *)

Module internals.
(** One step of the [reduce]: the four [acc.push] calls. *)
Definition valids_step (acc : list string) (f : Field) : list string :=
  let acc := acc ++ [MAX +:+ ":" +:+ name f] in
  let acc := acc ++ [MIN +:+ ":" +:+ name f] in
  if bool_decide (dataType f = "number") then
    let acc := acc ++ [SUM +:+ ":" +:+ name f] in
    acc ++ [AVG +:+ ":" +:+ name f]
  else acc.

(** [internals.valids(fields)]: [filter], then [reduce] from [[COUNT]]. *)
Definition valids (fields : list Field) : list string :=
  fold_left valids_step
    (filter (λ f, dataType f = "number" ∨ dataType f = "date") fields)
    [COUNT].
End internals.

(** ** The aggregation builder *)

(** Values exchanged with the search backend and with the caller's mapper. *)
#[warnings="-register-all"]
Inductive value : Type :=
| VUndefined
| VNumber (n : Z)
| VString (s : string)
| VObject (props : list (string * value)).

(** A result bucket [b]: its [key] and its [doc_count]. *)
Record Bucket : Type := mkBucket {
  key : value;
  doc_count : value
}.

(** The second argument [v] a bucket mapper's callback receives: the
    bucket's metric values by aggregation name. [metric_value v id] is
    [v[id]], [undefined] for a name that is not there. *)
Definition metric_value (v : gmap string value) (id : string) : value :=
  default VUndefined (v !! id).

(** The aggregation request [{ [metric]: { field: on_field } }]. *)
Record MetricSpec : Type := mkMetricSpec {
  metric : string;
  on_field : string
}.

(** The options object [{ order: { name: direction, ... } }]. *)
Record Config : Type := mkConfig {
  order : list (string * string)
}.

(** State and error monad over a store [S]. *)
Definition M (S A : Type) : Type := S → result (A * S).

Global Instance M_ret {S} : MRet (M S) := λ A a σ, Ok (a, σ).
Global Instance M_bind {S} : MBind (M S) := λ A B k m σ,
  match m σ with
  | Ok (a, σ') => k a σ'
  | Throw e => Throw e
  end.

(** A computation that only returns or throws. *)
Definition lift {S A} (r : result A) : M S A := λ σ,
  match r with
  | Ok a => Ok (a, σ)
  | Throw e => Throw e
  end.

(** References to objects of the store. *)
Definition ref : Type := positive.

Module Aggregation.

(** Modelled from the spec: [Aggregation.bucketMapper] of [./aggregation],
    which is not part of the sources. It wraps a callback into the result
    mapper that calls it on each result bucket [b] with the bucket's
    metric values [v]. *)
Inductive ResultMapper : Type :=
| bucketMapper (callback : Bucket → gmap string value → value).

(** What the builder calls its mapper's callback with. *)
Definition call (m : ResultMapper) (b : Bucket) (v : gmap string value)
  : value :=
  match m with bucketMapper callback => callback b v end.

(** The three methods of a builder that [apply] calls. The receiver is a
    reference into the store; each method returns the object the next
    call of the chain is made on. *)
Class Builder (S : Type) : Type := {
  aggregation : ref → string → MetricSpec → M S ref;
  configure : ref → Config → M S ref;
  mapper : ref → ResultMapper → M S ref
}.

(** Modelled from the spec: the builder of [./aggregation], which is not
    part of the sources, after the contract of section 4.7: it keeps the
    registered aggregations by name, the ordering configuration and the
    bucket mapper, and its methods return the builder itself. *)
Record t : Type := mk {
  aggs : gmap string MetricSpec;
  ordering : gmap string string;
  bucket_mapper : option ResultMapper
}.

Definition empty : t := mk ∅ ∅ None.

(** A method on an object that is not a builder is a [TypeError]. *)
Definition method (f : t → t) (this : ref) : M (gmap ref t) ref := λ σ,
  match σ !! this with
  | Some b => Ok (this, <[this := f b]> σ)
  | None => Throw TypeError
  end.

Global Instance recording : Builder (gmap ref t) := {
  aggregation this id spec :=
    method (λ b, mk (<[id := spec]> (aggs b)) (ordering b) (bucket_mapper b))
           this;
  configure this cfg :=
    method (λ b, mk (aggs b) (list_to_map (order cfg) ∪ ordering b)
                    (bucket_mapper b))
           this;
  mapper this m :=
    method (λ b, mk (aggs b) (ordering b) (Some m)) this
}.

End Aggregation.

(** ** [AggregateExpression] *)

(** [fn] is whatever string the constructor was given; [field] is
    [undefined] when the constructor got no field. *)
Record AggregateExpression : Type := new {
  fn : string;
  field : option Field
}.

Global Instance AggregateExpression_eq_dec : EqDecision AggregateExpression.
Proof. solve_decision. Defined.

Module AggregateExpression.

(** [this.field.<prop>]: a [TypeError] when [this.field] is [undefined]. *)
Definition field_prop (prop : Field → string) (this : AggregateExpression)
  : result string :=
  match field this with
  | Some f => Ok (prop f)
  | None => Throw TypeError
  end.

(** [toString()]: the shorthand, [count] or [fn:field.name]. *)
Definition toString (this : AggregateExpression) : result string :=
  if bool_decide (fn this = COUNT) then Ok COUNT
  else result_bind (field_prop name this) (λ n, Ok (fn this +:+ ":" +:+ n)).

(** [fieldLabel()]: [this.field && this.field.label]. *)
Definition fieldLabel (this : AggregateExpression) : option string :=
  match field this with
  | Some f => Some (label f)
  | None => None
  end.

(** [label()]; on the right-hand side [label] is the field's property
    [this.field.label]. *)
Definition label (this : AggregateExpression) : result string :=
  if bool_decide (fn this = COUNT) then Ok "Total Count"
  else if bool_decide (fn this = SUM) then
    result_bind (field_prop label this) (λ l, Ok ("Total " +:+ l))
  else if bool_decide (fn this = AVG) then
    result_bind (field_prop label this) (λ l, Ok ("Average " +:+ l))
  else if bool_decide (fn this = MAX) then
    result_bind (field_prop label this) (λ l, Ok ("Max " +:+ l))
  else if bool_decide (fn this = MIN) then
    result_bind (field_prop label this) (λ l, Ok ("Min " +:+ l))
  else Ok "Unknown".

(** [apply(agg, mapper)]; [mapper] is [None] when the argument is
    omitted. *)
Definition apply {S} `{Aggregation.Builder S} (this : AggregateExpression)
    (agg : ref) (mapper : option (value → value → value)) : M S ref :=
  let defaultMapper :=
    λ label value, VObject [("label", label); ("value", value)] in
  aggId ← lift (toString this);
  let mapper := default defaultMapper mapper in
  if bool_decide (fn this ≠ COUNT) then
    field_name ← lift (field_prop name this);
    r ← Aggregation.aggregation agg aggId (mkMetricSpec (fn this) field_name);
    r ← Aggregation.configure r (mkConfig [(aggId, "desc")]);
    _ ← Aggregation.mapper r
          (Aggregation.bucketMapper
             (λ b v, mapper (key b) (metric_value v aggId)));
    mret agg
  else
    _ ← Aggregation.mapper agg
          (Aggregation.bucketMapper (λ b _, mapper (key b) (doc_count b)));
    mret agg.

(** [parse(fields, expr)] for a string [expr]. *)
Definition parse (fields : list Field) (expr : string)
  : result AggregateExpression :=
  result_bind (joi.assert_string_valid expr (internals.valids fields)) (λ _,
    let '(parts_0, parts_rest) := JsString.split colon expr in
    Ok (new parts_0 (lodash.find_by_name fields (parts_rest !! 0%nat)))).

(** The factories. *)
Definition count : AggregateExpression := new COUNT None.
Definition sum (field : Field) : AggregateExpression := new SUM (Some field).
Definition avg (field : Field) : AggregateExpression := new AVG (Some field).
Definition max (field : Field) : AggregateExpression := new MAX (Some field).
Definition min (field : Field) : AggregateExpression := new MIN (Some field).

(** [of(fields, fns)]; [fns] is [None] when the argument is omitted. The
    two [reduce] calls start from [[]] and [concat] one block per field. *)
Definition of_ (fields : list Field) (fns : option (list string))
  : list AggregateExpression :=
  let fns := default [COUNT; SUM; AVG; MAX; MIN] fns in
  let numberFns := lodash.difference fns [COUNT] in
  let dateFns := lodash.difference fns [COUNT; SUM; AVG] in
  let countExprs := (λ _, count) <$> lodash.intersection fns [COUNT] in
  let numberExprs :=
    fold_left
      (λ acc field, acc ++ ((λ fn, new fn (Some field)) <$> numberFns))
      (lodash.filter_by_dataType "number" fields) [] in
  let dateExprs :=
    fold_left
      (λ acc field, acc ++ ((λ fn, new fn (Some field)) <$> dateFns))
      (lodash.filter_by_dataType "date" fields) [] in
  (countExprs ++ numberExprs) ++ dateExprs.

End AggregateExpression.

(** * Vocabulary of the specification *)

(** ** Sample data *)

Definition amt : Field := mkField "amt" "Amount" "number".
Definition created : Field := mkField "created" "Created" "date".
Definition a_b : Field := mkField "a:b" "A to B" "number".

(** A store with one fresh builder, at reference 1. *)
Definition builders : gmap ref Aggregation.t :=
  {[ 1%positive := Aggregation.empty ]}.

(** ** Enumeration (section 4.2) *)

(** The shorthands a field contributes, in the words of section 4.2. *)
Definition shorthands_of (f : Field) : list string :=
  if bool_decide (dataType f = "number") then
    ["max:" +:+ name f; "min:" +:+ name f; "sum:" +:+ name f; "avg:" +:+ name f]
  else if bool_decide (dataType f = "date") then
    ["max:" +:+ name f; "min:" +:+ name f]
  else [].

Definition validShorthands_spec (fields : list Field) : list string :=
  "count" :: (fields ≫= shorthands_of).

(** What one step of the [reduce] of [internals.valids] pushes. *)
Definition pushed (f : Field) : list string :=
  [MAX +:+ ":" +:+ name f; MIN +:+ ":" +:+ name f]
  ++ (if bool_decide (dataType f = "number")
      then [SUM +:+ ":" +:+ name f; AVG +:+ ":" +:+ name f] else []).

(** The dataTypes the enumerations recognize. *)
Definition recognized (f : Field) : Prop :=
  dataType f = "number" ∨ dataType f = "date".

(** ** Bulk generation (section 4.3) *)

(** The expressions emitted for one field: one per function, in order. *)
Definition block (fns : list string) (f : Field) : list AggregateExpression :=
  (λ fn, new fn (Some f)) <$> fns.

(** A block of a field: expressions that all aggregate that field. *)
Definition block_of (f : Field) (b : list AggregateExpression) : Prop :=
  Forall (λ e, field e = Some f) b.

(** The function order as section 4.3 words it: the canonical order [sum],
    [avg], [max], [min] restricted to the functions present in [fns] for a
    number field, [max], [min] restricted likewise for a date field. *)
Definition canonical_numberFns (fns : list string) : list string :=
  filter (λ fn, fn ∈ fns) [SUM; AVG; MAX; MIN].

Definition canonical_dateFns (fns : list string) : list string :=
  filter (λ fn, fn ∈ fns) [MAX; MIN].

Definition of_canonical (fields : list Field) (fns : list string)
  : list AggregateExpression :=
  (if decide (COUNT ∈ fns) then [AggregateExpression.count] else [])
  ++ (filter (λ f, dataType f = "number") fields
        ≫= block (canonical_numberFns fns))
  ++ (filter (λ f, dataType f = "date") fields
        ≫= block (canonical_dateFns fns)).

(** How often [x] occurs in [l]. *)
Definition occurrences {A : Type} `{EqDecision A} (x : A) (l : list A) : nat :=
  length (filter (λ y, y = x) l).

(** ** Round trip (section 4.5) *)

(** Same [fn], and same field by name (no field on either side for
    [count]). *)
Definition same_expression (e e' : AggregateExpression) : Prop :=
  fn e = fn e' ∧ name <$> field e = name <$> field e'.

(** [parse(F, e.toString())] returns an expression equal to [e] in that
    sense. *)
Definition roundtrips (F : list Field) (e : AggregateExpression) : Prop :=
  ∃ s e', AggregateExpression.toString e = Ok s
          ∧ AggregateExpression.parse F s = Ok e'
          ∧ same_expression e e'.

(** The expressions the factories and [of] produce from a field set. *)
Inductive produced (F : list Field) : AggregateExpression → Prop :=
| produced_count : produced F AggregateExpression.count
| produced_sum f : f ∈ F → produced F (AggregateExpression.sum f)
| produced_avg f : f ∈ F → produced F (AggregateExpression.avg f)
| produced_max f : f ∈ F → produced F (AggregateExpression.max f)
| produced_min f : f ∈ F → produced F (AggregateExpression.min f)
| produced_of fns e : e ∈ AggregateExpression.of_ F fns → produced F e.

(** The function/dataType pairs of section 3: [sum] and [avg] on a
    [number], [max] and [min] on a [number] or a [date]. *)
Definition allowed_on (fn dataType : string) : Prop :=
  (fn ∈ [SUM; AVG] ∧ dataType = "number")
  ∨ (fn ∈ [MAX; MIN] ∧ dataType ∈ ["number"; "date"]).

Global Instance allowed_on_dec fn dataType : Decision (allowed_on fn dataType).
Proof. unfold allowed_on. apply _. Defined.

(** An expression whose function is allowed on its field's dataType and
    whose field name has no colon; [count] has no field. *)
Definition legal (e : AggregateExpression) : Prop :=
  match field e with
  | None => fn e = COUNT
  | Some f =>
      allowed_on (fn e) (dataType f) ∧ JsString.contains colon (name f) = false
  end.

(** ** Data-model invariant (section 3) *)

(** A field for every function except [count], no field for [count]. *)
Definition invariant (e : AggregateExpression) : Prop :=
  (fn e ≠ COUNT → is_Some (field e)) ∧ (fn e = COUNT → field e = None).

(** ** Application (section 4.7) *)

(** The mapper [apply] uses: the caller's, or [{label, value}]. *)
Definition mapper_or_default (mapper : option (value → value → value))
  : value → value → value :=
  λ k v,
    match mapper with
    | Some mapper => mapper k v
    | None => VObject [("label", k); ("value", v)]
    end.

(** ** Further vocabulary *)

(** The five functions the module knows. *)
Definition known_fns : list string := [COUNT; SUM; AVG; MAX; MIN].

(** No field name contains a colon. *)
Definition colon_free_names (fields : list Field) : Prop :=
  Forall (λ f, JsString.contains colon (name f) = false) fields.

(** No two fields of the collection have the same name. *)
Definition unique_names (fields : list Field) : Prop :=
  NoDup (name <$> fields).

(** * Properties *)

(** ** Lists built by [reduce] *)

Section Reduce.
Context {A B : Type}.

(** A [reduce] that appends one block per element builds the
    concatenation of the blocks after the initial accumulator. *)
Lemma fold_left_app_bind (block : B → list A) (l : list B) (init : list A) :
  fold_left (λ acc x, acc ++ block x) l init = init ++ (l ≫= block).
Proof.
  revert init; induction l as [|x l IH]; intros init; simpl.
  - by rewrite app_nil_r.
  - by rewrite IH, app_assoc.
Qed.

(** Filtering first or contributing an empty block is the same. *)
Lemma bind_filter (P : B → Prop) `{∀ x, Decision (P x)}
    (block : B → list A) (l : list B) :
  filter P l ≫= block = l ≫= λ x, if decide (P x) then block x else [].
Proof.
  induction l as [|x l IH]; [done|].
  rewrite filter_cons, bind_cons.
  destruct (decide (P x)); rewrite ?bind_cons; by rewrite IH.
Qed.
End Reduce.

(** ** Enumeration of the valid shorthands *)

Lemma valids_step_app (acc : list string) (f : Field) :
  internals.valids_step acc f = acc ++ pushed f.
Proof.
  unfold internals.valids_step, pushed. case_bool_decide; simpl.
  - by rewrite <- !app_assoc.
  - by rewrite <- app_assoc.
Qed.

Lemma valids_reduce (fields : list Field) (acc : list string) :
  fold_left internals.valids_step fields acc
  = acc ++ (fields ≫= pushed).
Proof.
  revert acc; induction fields as [|f fields IH]; intros acc; simpl.
  - by rewrite app_nil_r.
  - by rewrite IH, valids_step_app, <- app_assoc.
Qed.

Lemma valids_eq_spec (fields : list Field) :
  internals.valids fields = validShorthands_spec fields.
Proof.
  unfold internals.valids, validShorthands_spec.
  rewrite valids_reduce, bind_filter. simpl. f_equal.
  apply list_bind_ext; [|done]. intros f. unfold shorthands_of, pushed.
  destruct (decide _) as [[Hn|Hd]|Hno]; repeat case_bool_decide;
    try done; try congruence.
  all: tauto.
Qed.

(** C3. [validShorthands] is ["count"] followed, for each field in input
    order, by [max:<name>], [min:<name>] when the dataType is [number] or
    [date], then [sum:<name>], [avg:<name>] when it is [number], and by
    nothing for any other dataType; for no field it is [["count"]]. *)
Theorem valids_enumeration :
  (∀ fields, internals.valids fields = validShorthands_spec fields)
  ∧ internals.valids [] = ["count"].
Proof. split; [apply valids_eq_spec|done]. Qed.

(** Membership in the enumeration. *)
Lemma elem_of_valids (fields : list Field) (s : string) :
  s ∈ internals.valids fields ↔
  s = "count" ∨ ∃ f, f ∈ fields ∧ s ∈ shorthands_of f.
Proof.
  rewrite valids_eq_spec. unfold validShorthands_spec.
  rewrite elem_of_cons, list_elem_of_bind.
  split; (intros [?|(f & ? & ?)]; [by left|right; by exists f]).
Qed.

(** ** Parsing *)

(** The empty string is no shorthand. *)
Lemma empty_not_valid (fields : list Field) : "" ∉ internals.valids fields.
Proof.
  rewrite elem_of_valids. intros [[=]|(f & _ & Hs)].
  unfold shorthands_of in Hs. repeat case_bool_decide;
    rewrite ?elem_of_cons, ?elem_of_nil in Hs; simpl in Hs;
    repeat destruct Hs as [Hs|Hs]; done.
Qed.


(** ** Labels *)

(** C8. [label()] is "Total Count" for [count]; "Total ", "Average ",
    "Max ", "Min " followed by the field's label for [sum], [avg], [max],
    [min]; and "Unknown" for any other [fn]. *)
Theorem label_cases (e : AggregateExpression) :
  (fn e = "count" → AggregateExpression.label e = Ok "Total Count")
  ∧ (∀ f, field e = Some f →
       (fn e = "sum" → AggregateExpression.label e = Ok ("Total " +:+ label f))
     ∧ (fn e = "avg" → AggregateExpression.label e = Ok ("Average " +:+ label f))
     ∧ (fn e = "max" → AggregateExpression.label e = Ok ("Max " +:+ label f))
     ∧ (fn e = "min" → AggregateExpression.label e = Ok ("Min " +:+ label f)))
  ∧ (fn e ∉ ["count"; "sum"; "avg"; "max"; "min"] →
     AggregateExpression.label e = Ok "Unknown").
Proof.
  destruct e as [fn field]; simpl.
  unfold AggregateExpression.label, AggregateExpression.field_prop; simpl.
  split; [|split].
  - by intros ->.
  - intros f ->. by repeat split; intros ->.
  - rewrite !not_elem_of_cons. intros (? & ? & ? & ? & ? & _).
    by repeat case_bool_decide.
Qed.

(** ** Bulk generation *)

Lemma uniq_from_seen {A} `{EqDecision A} (seen l : list A) :
  Forall (λ x, x ∈ seen) l → lodash.uniq_from seen l = [].
Proof.
  induction 1 as [|x l Hx _ IH]; simpl; [done|]. by rewrite decide_True.
Qed.

(** [_.intersection(fns, [c])] is [[c]] when [c] is among [fns], however
    often, and [[]] otherwise. *)
Lemma intersection_singleton {A} `{EqDecision A} (fns : list A) (c : A) :
  lodash.intersection fns [c] = if decide (c ∈ fns) then [c] else [].
Proof.
  unfold lodash.intersection.
  induction fns as [|x fns IH].
  - by rewrite decide_False by apply not_elem_of_nil.
  - rewrite filter_cons. destruct (decide (x ∈ [c])) as [Hx|Hx].
    + apply list_elem_of_singleton in Hx as ->. simpl.
      destruct (decide (c ∈ [])) as [Hnil|_]; [by apply elem_of_nil in Hnil|].
      rewrite decide_True by apply list_elem_of_here.
      f_equal. apply uniq_from_seen, Forall_forall.
      intros y Hy. apply list_elem_of_filter in Hy as [Hy _]. done.
    + rewrite IH. rewrite list_elem_of_singleton in Hx.
      destruct (decide (c ∈ fns)) as [Hc|Hc].
      * rewrite decide_True; [done|]. by apply list_elem_of_further.
      * rewrite decide_False; [done|].
        rewrite not_elem_of_cons. split; [congruence|done].
Qed.

Lemma difference_singleton {A} `{EqDecision A} (l : list A) (c : A) :
  lodash.difference l [c] = filter (λ x, x ≠ c) l.
Proof.
  apply list_filter_iff. intros x. by rewrite list_elem_of_singleton.
Qed.

(** [of] without the [reduce]: the count part, then a block per number
    field, then a block per date field. *)
Lemma of_unfold (fields : list Field) (fns : option (list string)) :
  AggregateExpression.of_ fields fns
  = let fns := default [COUNT; SUM; AVG; MAX; MIN] fns in
    (if decide (COUNT ∈ fns) then [AggregateExpression.count] else [])
    ++ (filter (λ f, dataType f = "number") fields
          ≫= block (lodash.difference fns [COUNT]))
    ++ (filter (λ f, dataType f = "date") fields
          ≫= block (lodash.difference fns [COUNT; SUM; AVG])).
Proof.
  unfold AggregateExpression.of_, lodash.filter_by_dataType. simpl.
  rewrite !fold_left_app_bind, intersection_singleton. simpl.
  rewrite <- app_assoc. by destruct (decide _).
Qed.

Lemma elem_of_block (fns : list string) (f : Field) (e : AggregateExpression) :
  e ∈ block fns f ↔ field e = Some f ∧ fn e ∈ fns.
Proof.
  unfold block. rewrite list_elem_of_fmap. split.
  - by intros (x & -> & Hx).
  - destruct e as [x o]; simpl. intros [-> Hx]. by exists x.
Qed.

(** Which expressions [of] emits. *)
Lemma elem_of_of (fields : list Field) (fns : option (list string))
    (e : AggregateExpression) :
  e ∈ AggregateExpression.of_ fields fns ↔
  let fns := default [COUNT; SUM; AVG; MAX; MIN] fns in
  (e = AggregateExpression.count ∧ COUNT ∈ fns)
  ∨ (∃ f, f ∈ fields ∧ field e = Some f ∧ fn e ∈ fns ∧
          ((dataType f = "number" ∧ fn e ≠ COUNT)
           ∨ (dataType f = "date" ∧ fn e ∉ [COUNT; SUM; AVG]))).
Proof.
  rewrite of_unfold. simpl. rewrite !elem_of_app, !list_elem_of_bind.
  unfold lodash.difference.
  setoid_rewrite elem_of_block. setoid_rewrite list_elem_of_filter.
  setoid_rewrite list_elem_of_singleton.
  split.
  - intros [He|[(f & (? & ? & ?) & ? & ?)|(f & (? & ? & ?) & ? & ?)]].
    + destruct (decide _); [|by apply elem_of_nil in He].
      apply list_elem_of_singleton in He. by left.
    + right. exists f. naive_solver.
    + right. exists f. naive_solver.
  - intros [[-> ?]|(f & ? & ? & ? & [[? ?]|[? ?]])].
    + left. rewrite decide_True by done. apply list_elem_of_here.
    + right; left. exists f. naive_solver.
    + right; right. exists f. naive_solver.
Qed.

(** ** Round trip through the shorthand *)

Lemma split_no_sep (sep : ascii) (s : string) :
  JsString.contains sep s = false → JsString.split sep s = (s, []).
Proof.
  induction s as [|c s IH]; simpl; [done|].
  intros [Hc Hs]%orb_false_elim. rewrite (IH Hs), Hc. done.
Qed.

Lemma split_at_first_sep (sep : ascii) (a b : string) :
  JsString.contains sep a = false →
  JsString.split sep (a +:+ String sep b)
  = (a, (JsString.split sep b).1 :: (JsString.split sep b).2).
Proof.
  induction a as [|c a IH]; simpl.
  - intros _. destruct (JsString.split sep b). by rewrite bool_decide_eq_true_2.
  - intros [Hc Ha]%orb_false_elim. by rewrite (IH Ha), Hc.
Qed.

(** The first field of a given name is found when some field has it. *)
Lemma find_by_name_elem_of (fields : list Field) (f : Field) :
  f ∈ fields →
  ∃ f', lodash.find_by_name fields (Some (name f)) = Some f'
        ∧ name f' = name f ∧ f' ∈ fields.
Proof.
  intros Hf. simpl.
  destruct (list_find_elem_of (λ f', name f' = name f) fields f Hf eq_refl)
    as [[i f'] Hfind].
  exists f'. rewrite Hfind. split; [done|].
  apply list_find_Some in Hfind as (Hi & Hname & _).
  split; [done|]. by eapply list_elem_of_lookup_2.
Qed.

Lemma produced_field (F : list Field) (e : AggregateExpression) (f : Field) :
  produced F e → field e = Some f → f ∈ F.
Proof.
  intros [ | | | | |fns e' He]; simpl; try congruence.
  apply elem_of_of in He as [[-> _]|(f' & Hf' & Hfield & _)]; simpl.
  - done.
  - congruence.
Qed.

Lemma allowed_on_shorthand (x : string) (f : Field) :
  allowed_on x (dataType f) → x +:+ ":" +:+ name f ∈ shorthands_of f.
Proof.
  unfold allowed_on, shorthands_of.
  rewrite !elem_of_cons, !elem_of_nil.
  intros [[[->| [->|[]]] ->]|[[->|[->|[]]] [->|[->|[]]]]]; simpl;
    rewrite !elem_of_cons; tauto.
Qed.

Lemma allowed_on_fn (x dataType : string) :
  allowed_on x dataType →
  x ≠ COUNT ∧ JsString.contains colon x = false.
Proof.
  unfold allowed_on. rewrite !elem_of_cons, !elem_of_nil.
  intros [[[->| [->|[]]] _]|[[->|[->|[]]] _]]; done.
Qed.

(** C1, as stated, fails. [sum(created)] on a date field serializes to
    "sum:created", which [parse] rejects; [sum(a_b)] on the number field
    named "a:b", also emitted by [of], serializes to "sum:a:b", which
    [parse] accepts and splits into [sum] and the name "a": the result has
    no field. *)
Lemma roundtrip_counterexample :
  (produced [created] (AggregateExpression.sum created)
   ∧ AggregateExpression.toString (AggregateExpression.sum created)
     = Ok "sum:created"
   ∧ AggregateExpression.parse [created] "sum:created"
     = Throw (ValidationError "sum:created"
                ["count"; "max:created"; "min:created"])
   ∧ ¬ roundtrips [created] (AggregateExpression.sum created))
  ∧ (AggregateExpression.sum a_b ∈ AggregateExpression.of_ [a_b] None
     ∧ AggregateExpression.toString (AggregateExpression.sum a_b)
       = Ok "sum:a:b"
     ∧ AggregateExpression.parse [a_b] "sum:a:b" = Ok (new "sum" None)
     ∧ ¬ roundtrips [a_b] (AggregateExpression.sum a_b)).
Proof.
  split; split_and!; try done.
  - apply produced_sum, list_elem_of_here.
  - intros (s & e' & [= <-] & Hparse & _). discriminate Hparse.
  - vm_compute. set_solver.
  - intros (s & e' & [= <-] & [= <-] & _ & Hname). discriminate Hname.
Qed.

(** C1, amended. For every field set [F] and every expression [e] made by
    the factories or by [of] from [F] whose function is allowed on its
    field's dataType and whose field name has no colon (or which is
    [count]), [parse(F, e.toString())] returns an expression with the same
    [fn] and a field of the same name (no field for [count]). *)
Theorem parse_toString_roundtrip (F : list Field) (e : AggregateExpression) :
  produced F e → legal e → roundtrips F e.
Proof.
  intros Hprod Hlegal. destruct e as [x [f|]]; unfold legal in Hlegal;
    simpl in Hlegal.
  - destruct Hlegal as [Hallowed Hcolon].
    pose proof (produced_field _ _ f Hprod eq_refl) as Hf.
    destruct (allowed_on_fn _ _ Hallowed) as [Hx Hxcolon].
    destruct (find_by_name_elem_of F f Hf) as (f' & Hfind & Hname & _).
    exists (x +:+ ":" +:+ name f), (new x (Some f')). split_and!.
    + unfold AggregateExpression.toString; simpl.
      by rewrite bool_decide_eq_false_2.
    + unfold AggregateExpression.parse, joi.assert_string_valid.
      rewrite bool_decide_eq_true_2; simpl.
      * change (":" +:+ name f) with (String colon (name f)).
        rewrite (split_at_first_sep colon x (name f) Hxcolon).
        rewrite (split_no_sep colon (name f) Hcolon). simpl.
        simpl in Hfind. by rewrite Hfind.
      * apply elem_of_valids. right. exists f.
        split; [done|]. by apply allowed_on_shorthand.
    + split; simpl; [done|by rewrite Hname].
  - subst x. exists "count", AggregateExpression.count. split_and!; [done| |done].
    unfold AggregateExpression.parse, joi.assert_string_valid.
    rewrite bool_decide_eq_true_2; [done|].
    apply elem_of_valids. by left.
Qed.

(** The round trip of [max(created)] against the fields [amt], [created]. *)
Lemma parse_toString_roundtrip_witness :
  produced [amt; created] (AggregateExpression.max created)
  ∧ legal (AggregateExpression.max created)
  ∧ roundtrips [amt; created] (AggregateExpression.max created).
Proof.
  assert (produced [amt; created] (AggregateExpression.max created)) as Hprod
    by (apply produced_max; compute_done).
  assert (legal (AggregateExpression.max created)) as Hlegal
    by (split; [compute_done|reflexivity]).
  split_and!; [done..|].
  exact (parse_toString_roundtrip [amt; created]
           (AggregateExpression.max created) Hprod Hlegal).
Defined.

(** ** Order of the generated expressions *)

(** C4, as stated, fails: with [fns = ["min", "sum"]] the number field
    [amt] gets [min] before [sum], the order of [fns], where the canonical
    order puts [sum] first. *)
Lemma of_order_counterexample :
  AggregateExpression.of_ [amt] (Some ["min"; "sum"])
  = [AggregateExpression.min amt; AggregateExpression.sum amt]
  ∧ of_canonical [amt] ["min"; "sum"]
    = [AggregateExpression.sum amt; AggregateExpression.min amt]
  ∧ AggregateExpression.of_ [amt] (Some ["min"; "sum"])
    ≠ of_canonical [amt] ["min"; "sum"]
  ∧ AggregateExpression.of_ [amt] (Some ["min"; "sum"])
    ≠ AggregateExpression.of_ [amt] (Some ["sum"; "min"]).
Proof. by split_and!. Qed.

(** C4, amended. For each number field [of] emits one expression per entry
    of [fns] other than [count], in the order (and as often as) they appear
    in [fns]; for each date field likewise for the entries other than
    [count], [sum] and [avg]. With [fns] omitted this is [sum], [avg],
    [max], [min] for a number field and [max], [min] for a date field. *)
Theorem of_follows_fns_order (fields : list Field) :
  (∀ fns, ∃ countExprs,
      AggregateExpression.of_ fields (Some fns)
      = countExprs
        ++ (filter (λ f, dataType f = "number") fields
              ≫= block (filter (λ fn, fn ≠ "count") fns))
        ++ (filter (λ f, dataType f = "date") fields
              ≫= block (filter (λ fn, fn ∉ ["count"; "sum"; "avg"]) fns))
      ∧ Forall (λ e, e = AggregateExpression.count) countExprs)
  ∧ AggregateExpression.of_ fields None
    = AggregateExpression.count
      :: (filter (λ f, dataType f = "number") fields
            ≫= block ["sum"; "avg"; "max"; "min"])
      ++ (filter (λ f, dataType f = "date") fields
            ≫= block ["max"; "min"]).
Proof.
  split.
  - intros fns. rewrite of_unfold. simpl. eexists. split.
    + by rewrite difference_singleton.
    + destruct (decide _); by repeat constructor.
  - by rewrite of_unfold.
Qed.

(** ** Order of the blocks *)

Lemma blocks_of_bind (fns : list string) (fields : list Field) :
  ∃ blocks, fields ≫= block fns = mjoin blocks ∧ Forall2 block_of fields blocks.
Proof.
  exists (block fns <$> fields). split.
  - by rewrite list_join_bind, list_fmap_bind.
  - apply Forall2_fmap_r, Forall_Forall2_diag, Forall_forall.
    intros f _. apply Forall_forall. by intros e [? _]%elem_of_block.
Qed.

(** C5. The result of [of(fields, fns)] is: one count expression if
    "count" is among [fns] and none otherwise; then one block per field of
    dataType "number", in the order of [fields]; then one block per field
    of dataType "date", in the order of [fields]. The block of a number
    field has one expression on that field per entry of [fns] other than
    "count", the block of a date field one per entry other than "count",
    "sum" and "avg" (with [fns] omitted: [sum], [avg], [max], [min] and
    [max], [min]). Fields of another dataType get no block: every field of
    an expression of the result is a number or date field of [fields]. For
    the field [amt] and [fns = ["sum", "count"]] the result is the count
    expression followed by the sum of [amt]. *)
Theorem of_block_order :
  (∀ fields fns, ∃ numberBlocks dateBlocks,
      AggregateExpression.of_ fields (Some fns)
      = (if decide ("count" ∈ fns) then [AggregateExpression.count] else [])
        ++ mjoin numberBlocks ++ mjoin dateBlocks
      ∧ numberBlocks
        = (block (filter (λ fn, fn ≠ "count") fns)
             <$> filter (λ f, dataType f = "number") fields)
      ∧ dateBlocks
        = (block (filter (λ fn, fn ∉ ["count"; "sum"; "avg"]) fns)
             <$> filter (λ f, dataType f = "date") fields)
      ∧ Forall2 block_of (filter (λ f, dataType f = "number") fields)
                numberBlocks
      ∧ Forall2 block_of (filter (λ f, dataType f = "date") fields)
                dateBlocks)
  ∧ (∀ fields,
      AggregateExpression.of_ fields None
      = AggregateExpression.count
        :: mjoin (block ["sum"; "avg"; "max"; "min"]
                    <$> filter (λ f, dataType f = "number") fields)
        ++ mjoin (block ["max"; "min"]
                    <$> filter (λ f, dataType f = "date") fields))
  ∧ (∀ fields fns e f,
      e ∈ AggregateExpression.of_ fields fns → field e = Some f →
      f ∈ fields ∧ (dataType f = "number" ∨ dataType f = "date"))
  ∧ AggregateExpression.of_ [mkField "amt" "Amount" "number"]
      (Some ["sum"; "count"])
    = [AggregateExpression.count;
       AggregateExpression.sum (mkField "amt" "Amount" "number")].
Proof.
  split_and!; [| | |done].
  - intros fields fns. rewrite of_unfold. simpl.
    rewrite difference_singleton.
    eexists _, _. split_and!; [|reflexivity|reflexivity| |].
    + by rewrite !list_join_bind, !list_fmap_bind.
    + apply Forall2_fmap_r, Forall_Forall2_diag, Forall_forall.
      intros f _. apply Forall_forall. by intros e [? _]%elem_of_block.
    + apply Forall2_fmap_r, Forall_Forall2_diag, Forall_forall.
      intros f _. apply Forall_forall. by intros e [? _]%elem_of_block.
  - intros fields. rewrite of_unfold. simpl.
    by rewrite !list_join_bind, !list_fmap_bind.
  - intros fields fns e f
      [[-> _]|(f' & Hf' & Hfield & _ & Htype)]%elem_of_of Hf; [done|].
    rewrite Hfield in Hf. injection Hf as <-. split; [done|].
    destruct Htype as [[? _]|[? _]]; [by left|by right].
Qed.

(** ** The allow-list is not checked against the known functions *)

Section Occurrences.
Context {A : Type} `{EqDecision A}.

Lemma occurrences_cons (x y : A) (l : list A) :
  occurrences x (y :: l)
  = (if decide (y = x) then 1 else 0) + occurrences x l.
Proof. unfold occurrences. rewrite filter_cons. by destruct (decide _). Qed.

Lemma occurrences_app (x : A) (l k : list A) :
  occurrences x (l ++ k) = occurrences x l + occurrences x k.
Proof. unfold occurrences. by rewrite filter_app, length_app. Qed.

Lemma occurrences_0 (x : A) (l : list A) : x ∉ l → occurrences x l = 0.
Proof.
  unfold occurrences. induction l as [|y l IH]; [done|].
  intros [Hy Hl]%not_elem_of_cons.
  rewrite filter_cons_False by congruence. by apply IH.
Qed.

Lemma occurrences_filter (P : A → Prop) `{∀ x, Decision (P x)}
    (x : A) (l : list A) :
  P x → occurrences x (filter P l) = occurrences x l.
Proof.
  intros HP. unfold occurrences. rewrite list_filter_filter.
  f_equal. apply list_filter_iff. intros y. split; [tauto|].
  by intros ->.
Qed.
End Occurrences.

Lemma occurrences_block (fns : list string) (x : string) (f g : Field) :
  occurrences (new x (Some f)) (block fns g)
  = if decide (g = f) then occurrences x fns else 0.
Proof.
  destruct (decide (g = f)) as [->|Hne].
  - unfold block.
    induction fns as [|y fns IH]; [done|].
    rewrite fmap_cons, !occurrences_cons, IH.
    destruct (decide (y = x)) as [->|Hy].
    + by rewrite decide_True.
    + rewrite decide_False; [done|]. congruence.
  - apply occurrences_0. rewrite elem_of_block. simpl. intros [? _]. congruence.
Qed.

Lemma occurrences_bind_block (fns : list string) (x : string) (f : Field)
    (fields : list Field) :
  occurrences (new x (Some f)) (fields ≫= block fns)
  = occurrences f fields * occurrences x fns.
Proof.
  induction fields as [|g fields IH]; [done|].
  rewrite bind_cons, occurrences_app, IH, occurrences_block, occurrences_cons.
  destruct (decide (g = f)); lia.
Qed.

Lemma occurrences_of (fields : list Field) (fns : list string) (x : string)
    (f : Field) :
  occurrences (new x (Some f)) (AggregateExpression.of_ fields (Some fns))
  = occurrences f (filter (λ f, dataType f = "number") fields)
    * occurrences x (lodash.difference fns [COUNT])
    + occurrences f (filter (λ f, dataType f = "date") fields)
      * occurrences x (lodash.difference fns [COUNT; SUM; AVG]).
Proof.
  rewrite of_unfold. simpl.
  rewrite !occurrences_app, !occurrences_bind_block.
  rewrite occurrences_0; [done|].
  destruct (decide _); [|apply not_elem_of_nil].
  by rewrite list_elem_of_singleton.
Qed.

(** C10. [of] does not check [fns] against the five known functions. An
    entry of [fns] outside them, such as "median", yields an expression
    with that [fn] for every number field and every date field; and an
    entry that applies to a field yields as many expressions for it as the
    entry has occurrences in [fns] (times the occurrences of the field in
    [fields]). *)
Theorem of_keeps_unknown_and_repeated_fns :
  (∀ fields fns x f,
      x ∈ fns → x ∉ ["count"; "sum"; "avg"; "max"; "min"] →
      f ∈ fields → dataType f = "number" ∨ dataType f = "date" →
      new x (Some f) ∈ AggregateExpression.of_ fields (Some fns))
  ∧ (∀ fields fns x f,
      (dataType f = "number" ∧ x ≠ "count")
      ∨ (dataType f = "date" ∧ x ∉ ["count"; "sum"; "avg"]) →
      occurrences (new x (Some f)) (AggregateExpression.of_ fields (Some fns))
      = occurrences f fields * occurrences x fns)
  ∧ AggregateExpression.of_ [amt; created] (Some ["median"; "sum"; "sum"])
    = [new "median" (Some amt); new "sum" (Some amt); new "sum" (Some amt);
       new "median" (Some created)].
Proof.
  split_and!; [| |done].
  - intros fields fns x f Hx Hunknown Hf Htype.
    apply elem_of_of. right. exists f. simpl.
    rewrite !not_elem_of_cons in Hunknown.
    destruct Hunknown as (? & ? & ? & _).
    split_and!; [done..|].
    destruct Htype; [left|right]; split; try done.
    rewrite !not_elem_of_cons. split_and!; try done. apply not_elem_of_nil.
  - intros fields fns x f Hcase. rewrite occurrences_of.
    destruct Hcase as [[Htype Hx]|[Htype Hx]].
    + rewrite (occurrences_filter (λ f, dataType f = "number")) by done.
      unfold lodash.difference at 1.
      rewrite (occurrences_filter (λ x, x ∉ [COUNT]))
        by (by rewrite list_elem_of_singleton).
      rewrite (occurrences_0 f (filter _ fields)); [lia|].
      rewrite list_elem_of_filter. intros [Hdate _]. congruence.
    + rewrite (occurrences_filter (λ f, dataType f = "date")) by done.
      unfold lodash.difference at 2.
      rewrite (occurrences_filter (λ x, x ∉ [COUNT; SUM; AVG])) by done.
      rewrite (occurrences_0 f (filter _ fields)); [lia|].
      rewrite list_elem_of_filter. intros [Hnumber _]. congruence.
Qed.

(** ** Application to a builder *)

Section AnyBuilder.
Context {S : Type} `{!Aggregation.Builder S}.

(** On any builder, applying an expression with a field and a function
    other than [count] is the chain of the three calls on [agg], and the
    result is [agg]. *)
Lemma apply_calls_metric (x : string) (f : Field) (agg : ref)
    (mapper : option (value → value → value)) (σ : S) :
  x ≠ COUNT →
  AggregateExpression.apply (new x (Some f)) agg mapper σ
  = (r ← Aggregation.aggregation agg (x +:+ ":" +:+ name f)
           (mkMetricSpec x (name f));
     r ← Aggregation.configure r (mkConfig [(x +:+ ":" +:+ name f, "desc")]);
     _ ← Aggregation.mapper r
           (Aggregation.bucketMapper
              (λ b v, mapper_or_default mapper (key b)
                        (metric_value v (x +:+ ":" +:+ name f))));
     mret agg) σ.
Proof.
  intros Hx. unfold AggregateExpression.apply, AggregateExpression.toString.
  simpl. rewrite (bool_decide_eq_false_2 (x = COUNT)) by done. simpl.
  unfold mbind at 1, M_bind at 1, lift at 1.
  rewrite (bool_decide_eq_true_2 (x ≠ COUNT)) by done.
  unfold mbind at 1, M_bind at 1, lift at 1.
  by destruct mapper.
Qed.

(** On any builder, applying the count expression is the single call
    [agg.mapper(...)], and the result is [agg]. *)
Lemma apply_calls_count (agg : ref)
    (mapper : option (value → value → value)) (σ : S) :
  AggregateExpression.apply AggregateExpression.count agg mapper σ
  = (_ ← Aggregation.mapper agg
           (Aggregation.bucketMapper
              (λ b _, mapper_or_default mapper (key b) (doc_count b)));
     mret agg) σ.
Proof. by destruct mapper. Qed.

(** Without a field, a function other than [count] is a [TypeError]
    before any call on the builder. *)
Lemma apply_no_field (x : string) (agg : ref)
    (mapper : option (value → value → value)) (σ : S) :
  x ≠ COUNT →
  AggregateExpression.apply (new x None) agg mapper σ = Throw TypeError.
Proof.
  intros Hx. unfold AggregateExpression.apply, AggregateExpression.toString.
  simpl. by rewrite (bool_decide_eq_false_2 (x = COUNT)) by done.
Qed.
End AnyBuilder.

Lemma method_run (g : Aggregation.t → Aggregation.t) (this : ref)
    (b : Aggregation.t) (σ : gmap ref Aggregation.t) :
  σ !! this = Some b →
  Aggregation.method g this σ = Ok (this, <[this := g b]> σ).
Proof. intros Hb. unfold Aggregation.method. by rewrite Hb. Qed.

(** On the builder of the specification, applied to a live builder. *)
Lemma apply_metric_run (x : string) (f : Field) (agg : ref)
    (mapper : option (value → value → value))
    (σ : gmap ref Aggregation.t) (b : Aggregation.t) :
  x ≠ COUNT → σ !! agg = Some b →
  AggregateExpression.apply (new x (Some f)) agg mapper σ
  = Ok (agg,
        <[agg := Aggregation.mk
                   (<[x +:+ ":" +:+ name f := mkMetricSpec x (name f)]>
                      (Aggregation.aggs b))
                   (<[x +:+ ":" +:+ name f := "desc"]> (Aggregation.ordering b))
                   (Some (Aggregation.bucketMapper
                            (λ b v, mapper_or_default mapper (key b)
                                      (metric_value v (x +:+ ":" +:+ name f)))))
        ]> σ).
Proof.
  intros Hx Hb. rewrite apply_calls_metric by done.
  unfold mbind, M_bind, mret, M_ret; simpl.
  rewrite (method_run _ agg b σ Hb).
  rewrite (method_run _ agg _ _ (lookup_insert_eq _ _ _)).
  rewrite (method_run _ agg _ _ (lookup_insert_eq _ _ _)).
  rewrite !insert_insert_eq. simpl.
  by rewrite insert_empty, <- insert_union_singleton_l.
Qed.

Lemma apply_count_run (agg : ref) (mapper : option (value → value → value))
    (σ : gmap ref Aggregation.t) (b : Aggregation.t) :
  σ !! agg = Some b →
  AggregateExpression.apply AggregateExpression.count agg mapper σ
  = Ok (agg,
        <[agg := Aggregation.mk (Aggregation.aggs b) (Aggregation.ordering b)
                   (Some (Aggregation.bucketMapper
                            (λ b _, mapper_or_default mapper (key b)
                                      (doc_count b))))
        ]> σ).
Proof.
  intros Hb. rewrite apply_calls_count.
  unfold mbind, M_bind, mret, M_ret; simpl.
  by rewrite (method_run _ agg b σ Hb).
Qed.

(** C6. For an expression [e] with a function other than [count] and a
    field [f], and a builder [agg], [e.apply(agg, mapper)] registers on
    [agg] the aggregation named [e.toString()] with the request
    [{fn: {field: f.name}}], orders it descending by that same name, sets
    the bucket mapper to one that calls [mapper] on the bucket's key and
    the bucket's metric value of that name ([{label, value}] of them when
    [mapper] is omitted), and returns [agg]; what the builder held
    otherwise, and every other object, is as before. On any builder the
    calls made are [agg.aggregation(...).configure(...).mapper(...)]. *)
Theorem apply_metric (e : AggregateExpression) (f : Field) (agg : ref)
    (mapper : option (value → value → value))
    (σ : gmap ref Aggregation.t) (b : Aggregation.t) :
  fn e ≠ "count" → field e = Some f → σ !! agg = Some b →
  ∃ aggId m,
    AggregateExpression.toString e = Ok aggId
    ∧ AggregateExpression.apply e agg mapper σ
      = Ok (agg,
            <[agg := Aggregation.mk
                       (<[aggId := mkMetricSpec (fn e) (name f)]>
                          (Aggregation.aggs b))
                       (<[aggId := "desc"]> (Aggregation.ordering b))
                       (Some m)]> σ)
    ∧ (∀ bucket v,
          Aggregation.call m bucket v
          = match mapper with
            | Some mapper => mapper (key bucket) (metric_value v aggId)
            | None => VObject [("label", key bucket);
                               ("value", metric_value v aggId)]
            end)
    ∧ (∀ S (B : Aggregation.Builder S) (s : S),
          AggregateExpression.apply e agg mapper s
          = (r ← Aggregation.aggregation agg aggId
                   (mkMetricSpec (fn e) (name f));
             r ← Aggregation.configure r (mkConfig [(aggId, "desc")]);
             _ ← Aggregation.mapper r m;
             mret agg) s).
Proof.
  destruct e as [x o]; simpl. intros Hx -> Hb.
  eexists _, _. split_and!.
  - unfold AggregateExpression.toString; simpl.
    by rewrite bool_decide_eq_false_2.
  - by apply apply_metric_run.
  - intros bucket v. simpl. by destruct mapper.
  - intros S B s. by apply apply_calls_metric.
Qed.

(** [sum(amt)] applied to a fresh builder: the aggregation "sum:amt" is
    registered and ordered descending, and the default mapper turns the
    bucket of key "X" and metric 42 into [{label: "X", value: 42}]. *)
Lemma apply_metric_witness :
  ∃ σ' b' m,
    AggregateExpression.apply (AggregateExpression.sum amt) 1%positive None
      builders = Ok (1%positive, σ')
    ∧ σ' !! 1%positive = Some b'
    ∧ Aggregation.aggs b' !! "sum:amt" = Some (mkMetricSpec "sum" "amt")
    ∧ Aggregation.ordering b' !! "sum:amt" = Some "desc"
    ∧ Aggregation.bucket_mapper b' = Some m
    ∧ Aggregation.call m (mkBucket (VString "X") (VNumber 1))
        {[ "sum:amt" := VNumber 42 ]}
      = VObject [("label", VString "X"); ("value", VNumber 42)].
Proof.
  destruct (apply_metric (AggregateExpression.sum amt) amt 1%positive None
              builders Aggregation.empty)
    as (aggId & m & Hid & Happly & Hm & _); [done|reflexivity|reflexivity|].
  injection Hid as <-.
  eexists _, _, m. split_and!.
  - exact Happly.
  - apply lookup_insert_eq.
  - apply lookup_insert_eq.
  - apply lookup_insert_eq.
  - reflexivity.
  - rewrite Hm. reflexivity.
Defined.

(** C7. Applying the count expression to a builder [agg] sets the bucket
    mapper to one that calls [mapper] on the bucket's key and the bucket's
    [doc_count] ([{label, value}] of them when [mapper] is omitted), and
    returns [agg]; the registered aggregations and the ordering of [agg],
    and every other object, are as before. On any builder the only call
    made is [agg.mapper]. *)
Theorem apply_count (agg : ref) (mapper : option (value → value → value))
    (σ : gmap ref Aggregation.t) (b : Aggregation.t) :
  σ !! agg = Some b →
  (∃ m,
    AggregateExpression.apply AggregateExpression.count agg mapper σ
    = Ok (agg,
          <[agg := Aggregation.mk (Aggregation.aggs b) (Aggregation.ordering b)
                     (Some m)]> σ)
    ∧ (∀ bucket v,
          Aggregation.call m bucket v
          = match mapper with
            | Some mapper => mapper (key bucket) (doc_count bucket)
            | None => VObject [("label", key bucket);
                               ("value", doc_count bucket)]
            end)
    ∧ (∀ S (B : Aggregation.Builder S) (s : S),
          AggregateExpression.apply AggregateExpression.count agg mapper s
          = (_ ← Aggregation.mapper agg m; mret agg) s)).
Proof.
  intros Hb. eexists. split_and!.
  - by apply apply_count_run.
  - intros bucket v. simpl. by destruct mapper.
  - intros S B s. apply apply_calls_count.
Qed.

(** [count()] applied to a fresh builder: nothing is registered or
    ordered, and the default mapper turns the bucket of key "X" and
    [doc_count] 7 into [{label: "X", value: 7}]. *)
Lemma apply_count_witness :
  ∃ σ' b' m,
    AggregateExpression.apply AggregateExpression.count 1%positive None
      builders = Ok (1%positive, σ')
    ∧ σ' !! 1%positive = Some b'
    ∧ Aggregation.aggs b' = ∅
    ∧ Aggregation.ordering b' = ∅
    ∧ Aggregation.bucket_mapper b' = Some m
    ∧ Aggregation.call m (mkBucket (VString "X") (VNumber 7)) ∅
      = VObject [("label", VString "X"); ("value", VNumber 7)].
Proof.
  destruct (apply_count 1%positive None builders Aggregation.empty)
    as (m & Happly & Hm & _); [reflexivity|].
  eexists _, _, m. split_and!.
  - exact Happly.
  - apply lookup_insert_eq.
  - reflexivity.
  - reflexivity.
  - reflexivity.
  - rewrite Hm. reflexivity.
Defined.

(** ** Totality under the data-model invariant *)

Lemma invariant_toString (e : AggregateExpression) :
  invariant e → is_Ok (AggregateExpression.toString e).
Proof.
  destruct e as [x o]. intros [Hsome _]. simpl in *.
  unfold is_Ok, AggregateExpression.toString,
    AggregateExpression.field_prop; simpl.
  case_bool_decide as Hx; [by eexists|].
  destruct (Hsome Hx) as [f ->]. by eexists.
Qed.

Lemma invariant_label (e : AggregateExpression) :
  invariant e → is_Ok (AggregateExpression.label e).
Proof.
  destruct e as [x o]. intros [Hsome _]. simpl in *.
  unfold is_Ok, AggregateExpression.label,
    AggregateExpression.field_prop; simpl.
  case_bool_decide as Hx; [by eexists|].
  destruct (Hsome Hx) as [f ->]. simpl.
  repeat case_bool_decide; by eexists.
Qed.

Lemma invariant_apply (e : AggregateExpression) (agg : ref)
    (mapper : option (value → value → value))
    (σ : gmap ref Aggregation.t) (b : Aggregation.t) :
  invariant e → σ !! agg = Some b →
  is_Ok (AggregateExpression.apply e agg mapper σ).
Proof.
  destruct e as [x o]. intros [Hsome Hnone] Hb. simpl in *.
  destruct (decide (x = COUNT)) as [->|Hx].
  - rewrite (Hnone eq_refl).
    eexists. by apply (apply_count_run agg mapper σ b).
  - destruct (Hsome Hx) as [f ->]. eexists. by apply apply_metric_run.
Qed.

Lemma invariant_of (fields : list Field) (fns : option (list string))
    (e : AggregateExpression) :
  e ∈ AggregateExpression.of_ fields fns → invariant e.
Proof.
  intros [[-> _]|(f & _ & Hfield & _ & Hfn)]%elem_of_of.
  - split; [done|by intros _].
  - split; [by rewrite Hfield|]. intros Hcount.
    destruct Hfn as [[_ Hne]|[_ Hne]]; [done|].
    rewrite Hcount in Hne. destruct Hne. apply list_elem_of_here.
Qed.

Lemma unrecognized_no_contribution (fields : list Field) :
  internals.valids fields = internals.valids (filter recognized fields)
  ∧ ∀ fns, AggregateExpression.of_ fields fns
           = AggregateExpression.of_ (filter recognized fields) fns.
Proof.
  split.
  - rewrite !valids_eq_spec. unfold validShorthands_spec. f_equal.
    rewrite bind_filter. apply list_bind_ext; [|done]. intros f.
    destruct (decide (recognized f)) as [|Hno]; [done|].
    unfold recognized in Hno. unfold shorthands_of.
    repeat case_bool_decide; tauto.
  - intros fns. rewrite !of_unfold. simpl. rewrite !list_filter_filter.
    f_equal. f_equal; [f_equal|f_equal];
      apply list_filter_iff; intros f; unfold recognized; tauto.
Qed.

(** C9. Under the invariant, [toString], [label] and [apply] (on a live
    builder) return and do not throw, and [fieldLabel] is the label of the
    field if there is one; the factories and [of] return expressions that
    satisfy the invariant; and fields of a dataType other than "number"
    and "date" contribute nothing to [validShorthands] and [of]: the
    results are those for the collection without these fields. *)
Theorem total_under_invariant :
  (∀ e, invariant e →
        is_Ok (AggregateExpression.toString e)
        ∧ is_Ok (AggregateExpression.label e)
        ∧ AggregateExpression.fieldLabel e = label <$> field e
        ∧ ∀ agg mapper (σ : gmap ref Aggregation.t) b,
            σ !! agg = Some b →
            is_Ok (AggregateExpression.apply e agg mapper σ))
  ∧ (invariant AggregateExpression.count
     ∧ ∀ f, invariant (AggregateExpression.sum f)
            ∧ invariant (AggregateExpression.avg f)
            ∧ invariant (AggregateExpression.max f)
            ∧ invariant (AggregateExpression.min f))
  ∧ (∀ fields fns e, e ∈ AggregateExpression.of_ fields fns → invariant e)
  ∧ (∀ fields,
        internals.valids fields = internals.valids (filter recognized fields)
        ∧ ∀ fns, AggregateExpression.of_ fields fns
                 = AggregateExpression.of_ (filter recognized fields) fns).
Proof.
  split_and!.
  - intros e He. split_and!.
    + by apply invariant_toString.
    + by apply invariant_label.
    + by destruct e as [x [f|]].
    + intros agg mapper σ b Hb. by eapply invariant_apply.
  - split; [done|by intros _].
  - intros f. by split_and!; (split; [eauto|]).
  - apply invariant_of.
  - apply unrecognized_no_contribution.
Qed.

(** * Further properties of the code *)

(** ** What [parse] returns *)

Lemma elem_of_shorthands_of (s : string) (f : Field) :
  s ∈ shorthands_of f ↔
  ∃ x, s = x +:+ ":" +:+ name f ∧ allowed_on x (dataType f).
Proof.
  split.
  - unfold shorthands_of, allowed_on.
    repeat case_bool_decide; rewrite ?elem_of_cons, ?elem_of_nil.
    + intros [->|[->|[->|[->|[]]]]];
        [exists MAX|exists MIN|exists SUM|exists AVG]; (split; [done|]);
        rewrite !elem_of_cons; tauto.
    + intros [->|[->|[]]]; [exists MAX|exists MIN]; (split; [done|]);
        rewrite !elem_of_cons; tauto.
    + intros [].
  - intros (x & -> & Hx). by apply allowed_on_shorthand.
Qed.

(** What a successful [parse] computed. *)
Lemma parse_Ok_inv (fields : list Field) (s : string)
    (e : AggregateExpression) :
  AggregateExpression.parse fields s = Ok e →
  s ∈ internals.valids fields
  ∧ e = new (JsString.split colon s).1
            (lodash.find_by_name fields ((JsString.split colon s).2 !! 0%nat)).
Proof.
  unfold AggregateExpression.parse, joi.assert_string_valid.
  case_bool_decide as Hin; simpl; [|by case_bool_decide].
  destruct (JsString.split colon s) as [p ps]. by intros [= <-].
Qed.

Lemma parse_Ok_iff (fields : list Field) (s : string) :
  is_Ok (AggregateExpression.parse fields s) ↔ s ∈ internals.valids fields.
Proof.
  split.
  - intros [e He]. by apply parse_Ok_inv in He as [? _].
  - intros Hin. unfold AggregateExpression.parse, joi.assert_string_valid.
    rewrite bool_decide_eq_true_2 by done. simpl.
    destruct (JsString.split colon s). by eexists.
Qed.

(** The first piece of a shorthand of a field is its function. *)
Lemma split_shorthand (x n : string) (t : string) :
  allowed_on x t →
  JsString.split colon (x +:+ ":" +:+ n)
  = (x, (JsString.split colon n).1 :: (JsString.split colon n).2).
Proof.
  intros [_ Hx]%allowed_on_fn.
  change (":" +:+ n) with (String colon n).
  by apply split_at_first_sep.
Qed.

Lemma unique_names_inj (fields : list Field) (f g : Field) :
  unique_names fields → f ∈ fields → g ∈ fields → name f = name g → f = g.
Proof.
  unfold unique_names. induction fields as [|h fields IH]; simpl.
  - by intros _ ?%elem_of_nil.
  - rewrite NoDup_cons, !elem_of_cons.
    intros [Hh Hnodup] [->|Hf] [->|Hg] Hname; [done| | |by apply IH].
    + destruct Hh. rewrite Hname. by apply list_elem_of_fmap_2.
    + destruct Hh. rewrite <- Hname. by apply list_elem_of_fmap_2.
Qed.

Lemma colon_free_name (fields : list Field) (f : Field) :
  colon_free_names fields → f ∈ fields →
  JsString.contains colon (name f) = false.
Proof. intros Hall Hf. by apply (proj1 (Forall_forall _ _) Hall). Qed.

(** X1. When no two fields have the same name and no name contains a
    colon, what [parse] returns is the count expression or a function on a
    field of the collection whose dataType allows it. *)
Theorem parse_sound (fields : list Field) (s : string)
    (e : AggregateExpression) :
  unique_names fields → colon_free_names fields →
  AggregateExpression.parse fields s = Ok e →
  e = AggregateExpression.count
  ∨ ∃ f, f ∈ fields ∧ field e = Some f ∧ allowed_on (fn e) (dataType f)
         ∧ s = fn e +:+ ":" +:+ name f.
Proof.
  intros Huniq Hcolon [Hin ->]%parse_Ok_inv.
  apply elem_of_valids in Hin as [->|(f & Hf & Hs)]; [by left|right].
  apply elem_of_shorthands_of in Hs as (x & -> & Hx).
  rewrite (split_shorthand x (name f) _ Hx).
  rewrite (split_no_sep _ _ (colon_free_name _ _ Hcolon Hf)). simpl.
  destruct (find_by_name_elem_of fields f Hf) as (f' & Hfind & Hname & Hf').
  simpl in Hfind. rewrite Hfind.
  assert (f' = f) as -> by by apply (unique_names_inj fields).
  by exists f.
Qed.

(** [parse] of "max:created" against [amt], [created]. *)
Lemma parse_sound_witness :
  AggregateExpression.max created = AggregateExpression.count
  ∨ ∃ f, f ∈ [amt; created]
         ∧ field (AggregateExpression.max created) = Some f
         ∧ allowed_on (fn (AggregateExpression.max created)) (dataType f)
         ∧ "max:created" = fn (AggregateExpression.max created) +:+ ":" +:+ name f.
Proof.
  apply (parse_sound [amt; created] "max:created").
  - unfold unique_names. compute_done.
  - unfold colon_free_names. by repeat constructor.
  - reflexivity.
Defined.

(** X2. When no field name contains a colon, the expression [parse]
    returns for [s] serializes back to [s]; in particular it has a field
    whenever its function is not [count]. *)
Theorem toString_parse (fields : list Field) (s : string)
    (e : AggregateExpression) :
  colon_free_names fields →
  AggregateExpression.parse fields s = Ok e →
  AggregateExpression.toString e = Ok s ∧ invariant e.
Proof.
  intros Hcolon [Hin ->]%parse_Ok_inv.
  apply elem_of_valids in Hin as [->|(f & Hf & Hs)].
  - split; [done|]. split; [done|by intros _].
  - apply elem_of_shorthands_of in Hs as (x & -> & Hx).
    rewrite (split_shorthand x (name f) _ Hx).
    rewrite (split_no_sep _ _ (colon_free_name _ _ Hcolon Hf)). simpl.
    destruct (find_by_name_elem_of fields f Hf) as (f' & Hfind & Hname & _).
    simpl in Hfind. rewrite Hfind.
    destruct (allowed_on_fn _ _ Hx) as [Hcount _].
    split.
    + unfold AggregateExpression.toString; simpl.
      rewrite bool_decide_eq_false_2 by done. simpl. by rewrite Hname.
    + split; simpl; [by eauto|done].
Qed.

(** "sum:amt" parsed against [amt], [created] serializes to "sum:amt". *)
Lemma toString_parse_witness :
  AggregateExpression.toString (AggregateExpression.sum amt) = Ok "sum:amt"
  ∧ invariant (AggregateExpression.sum amt).
Proof.
  apply (toString_parse [amt; created] "sum:amt").
  - unfold colon_free_names. by repeat constructor.
  - reflexivity.
Defined.

(** X3. Whatever the field names, the function of an expression [parse]
    returns is one of the five known functions. *)
Theorem parse_fn_known (fields : list Field) (s : string)
    (e : AggregateExpression) :
  AggregateExpression.parse fields s = Ok e → fn e ∈ known_fns.
Proof.
  intros [Hin ->]%parse_Ok_inv. simpl.
  apply elem_of_valids in Hin as [->|(f & Hf & Hs)].
  - compute_done.
  - apply elem_of_shorthands_of in Hs as (x & -> & Hx).
    rewrite (split_shorthand x (name f) _ Hx). simpl.
    unfold allowed_on in Hx. unfold known_fns.
    rewrite !elem_of_cons in *. tauto.
Qed.

(** Against the field named "a:b", "sum:a:b" parses to a [sum]. *)
Lemma parse_fn_known_witness : fn (new "sum" None) ∈ known_fns.
Proof. apply (parse_fn_known [a_b] "sum:a:b"). reflexivity. Defined.

(** ** [of] against [validShorthands] *)

Lemma toString_block_number (f : Field) :
  AggregateExpression.toString <$> block [SUM; AVG; MAX; MIN] f
  = Ok <$> ["sum:" +:+ name f; "avg:" +:+ name f;
            "max:" +:+ name f; "min:" +:+ name f].
Proof. reflexivity. Qed.

Lemma toString_block_date (f : Field) :
  AggregateExpression.toString <$> block [MAX; MIN] f
  = Ok <$> ["max:" +:+ name f; "min:" +:+ name f].
Proof. reflexivity. Qed.

Lemma toString_blocks_valids (fields : list Field) :
  (AggregateExpression.toString
     <$> (filter (λ f, dataType f = "number") fields
            ≫= block [SUM; AVG; MAX; MIN]))
  ++ (AggregateExpression.toString
        <$> (filter (λ f, dataType f = "date") fields ≫= block [MAX; MIN]))
  ≡ₚ Ok <$> (fields ≫= shorthands_of).
Proof.
  induction fields as [|f fields IH]; [done|].
  rewrite !filter_cons, bind_cons, fmap_app. unfold shorthands_of at 1.
  destruct (decide (dataType f = "number")) as [Hn|Hn].
  - rewrite decide_False by (rewrite Hn; done).
    rewrite bool_decide_eq_true_2 by done.
    rewrite bind_cons, fmap_app, toString_block_number, <- app_assoc, IH.
    apply Permutation_app_tail. simpl.
    apply (Permutation_app_comm [_; _] [_; _]).
  - rewrite bool_decide_eq_false_2 by done.
    destruct (decide (dataType f = "date")) as [Hd|Hd].
    + rewrite bool_decide_eq_true_2 by done.
      rewrite bind_cons, fmap_app, toString_block_date.
      rewrite <- IH, app_assoc, app_assoc.
      apply Permutation_app_tail, Permutation_app_comm.
    + rewrite bool_decide_eq_false_2 by done. by rewrite IH.
Qed.

Lemma of_default_unfold (fields : list Field) :
  AggregateExpression.of_ fields None
  = AggregateExpression.count
    :: (filter (λ f, dataType f = "number") fields
          ≫= block [SUM; AVG; MAX; MIN])
    ++ (filter (λ f, dataType f = "date") fields ≫= block [MAX; MIN]).
Proof. by rewrite of_unfold. Qed.

(** X4. With [fns] omitted, the shorthands of the expressions [of] builds
    are exactly the valid shorthands of the fields, each as often, in
    another order. *)
Theorem of_default_enumerates_valids (fields : list Field) :
  AggregateExpression.toString <$> AggregateExpression.of_ fields None
  ≡ₚ Ok <$> internals.valids fields.
Proof.
  rewrite of_default_unfold, valids_eq_spec. unfold validShorthands_spec.
  rewrite !fmap_cons, fmap_app. apply Permutation_skip.
  apply toString_blocks_valids.
Qed.

(** X5. When every entry of [fns] is one of the five known functions, the
    shorthand of every expression [of] builds is a valid shorthand of the
    fields, so [parse] accepts it. *)
Theorem of_known_fns_valid (fields : list Field) (fns : list string)
    (e : AggregateExpression) :
  Forall (λ x, x ∈ known_fns) fns →
  e ∈ AggregateExpression.of_ fields (Some fns) →
  ∃ s, AggregateExpression.toString e = Ok s
       ∧ s ∈ internals.valids fields
       ∧ is_Ok (AggregateExpression.parse fields s).
Proof.
  intros Hknown [[-> _]|(f & Hf & Hfield & Hfn & Htype)]%elem_of_of.
  - exists "count". split; [done|].
    assert ("count" ∈ internals.valids fields) as Hin
      by (apply elem_of_valids; by left).
    split; [done|by apply parse_Ok_iff].
  - simpl in Hfn. destruct e as [x o]; simpl in *; subst o.
    pose proof (proj1 (Forall_forall _ _) Hknown x Hfn) as Hx.
    unfold known_fns in Hx.
    assert (allowed_on x (dataType f)) as Hallowed.
    { unfold allowed_on. rewrite !elem_of_cons, !elem_of_nil in *.
      destruct Htype as [[-> ?]|[-> ?]]; tauto. }
    exists (x +:+ ":" +:+ name f).
    assert (x +:+ ":" +:+ name f ∈ internals.valids fields) as Hin.
    { apply elem_of_valids. right. exists f.
      split; [done|by apply allowed_on_shorthand]. }
    split_and!; [|done|by apply parse_Ok_iff].
    unfold AggregateExpression.toString; simpl.
    by rewrite bool_decide_eq_false_2 by by apply (allowed_on_fn _ _ Hallowed).
Qed.

(** [min(created)], built by [of] for the allow-list [min], [sum]. *)
Lemma of_known_fns_valid_witness :
  ∃ s, AggregateExpression.toString (AggregateExpression.min created) = Ok s
       ∧ s ∈ internals.valids [amt; created]
       ∧ is_Ok (AggregateExpression.parse [amt; created] s).
Proof.
  apply (of_known_fns_valid [amt; created] ["min"; "sum"]).
  - unfold known_fns. repeat constructor; compute_done.
  - compute_done.
Defined.

(** X6. [of] builds nothing outside the allow-list and nothing on a field
    it should not: every expression it returns has its function among
    [fns] (the five functions when [fns] is omitted) and is the count
    expression or has a field of the collection whose dataType is "number"
    or "date", with a function other than [count], and other than [sum] and
    [avg] when the dataType is "date". *)
Theorem of_respects_fns_and_types (fields : list Field)
    (fns : option (list string)) (e : AggregateExpression) :
  e ∈ AggregateExpression.of_ fields fns →
  fn e ∈ default known_fns fns
  ∧ (e = AggregateExpression.count
     ∨ ∃ f, field e = Some f ∧ f ∈ fields ∧ recognized f
            ∧ fn e ≠ "count"
            ∧ (dataType f = "date" → fn e ≠ "sum" ∧ fn e ≠ "avg")).
Proof.
  intros [[-> Hc]|(f & Hf & Hfield & Hfn & Htype)]%elem_of_of.
  - split; [done|by left].
  - split; [done|right]. exists f. unfold recognized.
    destruct Htype as [[Hn Hne]|[Hd Hne]].
    + split_and!; [done|done|by left|done|]. rewrite Hn. done.
    + rewrite !not_elem_of_cons in Hne. destruct Hne as (? & ? & ? & _).
      split_and!; [done|done|by right|done|done].
Qed.

(** The median of [created], built by [of] for the allow-list [median]. *)
Lemma of_respects_fns_and_types_witness :
  fn (new "median" (Some created)) ∈ default known_fns (Some ["median"])
  ∧ (new "median" (Some created) = AggregateExpression.count
     ∨ ∃ f, field (new "median" (Some created)) = Some f
            ∧ f ∈ [amt; created] ∧ recognized f
            ∧ fn (new "median" (Some created)) ≠ "count"
            ∧ (dataType f = "date" →
               fn (new "median" (Some created)) ≠ "sum"
               ∧ fn (new "median" (Some created)) ≠ "avg")).
Proof.
  apply (of_respects_fns_and_types [amt; created] (Some ["median"])).
  compute_done.
Defined.

(** X7. Empty inputs of [of]: an empty allow-list is not replaced by the
    default and yields no expression at all; an empty field collection
    yields the count expression alone, when "count" is allowed. *)
Theorem of_empty_inputs :
  (∀ fields, AggregateExpression.of_ fields (Some []) = [])
  ∧ (∀ fns, AggregateExpression.of_ [] (Some fns)
            = if decide ("count" ∈ fns) then [AggregateExpression.count]
              else [])
  ∧ AggregateExpression.of_ [] None = [AggregateExpression.count].
Proof.
  split_and!.
  - intros fields. rewrite of_unfold. simpl.
    unfold lodash.difference, block. simpl.
    assert (∀ l : list Field, l ≫= (λ _, []) = ([] : list AggregateExpression))
      as Hnil by (induction l; [done|by rewrite bind_cons]).
    by rewrite !Hnil.
  - intros fns. rewrite of_unfold. simpl. by rewrite app_nil_r.
  - done.
Qed.

(** ** When the methods throw *)

(** X8. The only failure of [toString], [label] and [apply] is the
    [TypeError] of reading a property of a missing field: [toString] throws
    exactly when the function is not [count] and there is no field; [label]
    exactly when the function is [sum], [avg], [max] or [min] and there is
    no field, so an unknown function without field is labelled "Unknown";
    and [apply] throws in the case of [toString], on any builder and before
    any call on it. *)
Theorem missing_field_failures (e : AggregateExpression) :
  (AggregateExpression.toString e = Throw TypeError
   ↔ fn e ≠ "count" ∧ field e = None)
  ∧ (is_Ok (AggregateExpression.toString e)
     ↔ fn e = "count" ∨ is_Some (field e))
  ∧ (AggregateExpression.label e = Throw TypeError
     ↔ fn e ∈ ["sum"; "avg"; "max"; "min"] ∧ field e = None)
  ∧ (is_Ok (AggregateExpression.label e)
     ↔ fn e ∉ ["sum"; "avg"; "max"; "min"] ∨ is_Some (field e))
  ∧ (fn e ≠ "count" ∧ field e = None →
     ∀ S (B : Aggregation.Builder S) agg mapper (s : S),
       AggregateExpression.apply e agg mapper s = Throw TypeError).
Proof.
  destruct e as [x [f|]]; simpl;
    unfold AggregateExpression.toString, AggregateExpression.label,
      AggregateExpression.field_prop, is_Ok; simpl;
    rewrite !elem_of_cons, elem_of_nil.
  - split_and!.
    + split; [by case_bool_decide|by intros [_ [=]]].
    + split; [eauto|]. intros _. case_bool_decide; by eexists.
    + split; [by repeat case_bool_decide|by intros [_ [=]]].
    + split; [eauto|]. intros _. repeat case_bool_decide; by eexists.
    + by intros [_ [=]].
  - split_and!.
    + split; [by case_bool_decide|]. intros [Hx _].
      by rewrite bool_decide_eq_false_2.
    + split.
      * intros [s Hs]. case_bool_decide; [by left|done].
      * intros [->|[? [=]]]. by eexists.
    + split.
      * repeat case_bool_decide; try done; intros _;
          unfold COUNT, SUM, AVG, MAX, MIN in *; tauto.
      * intros [[->|[->|[->|[->|[]]]]] _]; done.
    + split.
      * intros [s Hs]. left.
        repeat case_bool_decide; try done;
          first [ subst x; by intros [|[|[|[|[]]]]]
                | unfold COUNT, SUM, AVG, MAX, MIN in *; tauto ].
      * intros [Hx|[? [=]]].
        repeat case_bool_decide; try (by eexists);
          unfold COUNT, SUM, AVG, MAX, MIN in *; tauto.
    + intros [Hx _] S B agg mapper s. by apply apply_no_field.
Qed.

(** ** Shorthands as names *)

Lemma append_inj_r (a b c : string) : a +:+ b = a +:+ c → b = c.
Proof. induction a as [|ch a IH]; simpl; [done|]. intros [=]. by apply IH. Qed.

(** X9. Among expressions that satisfy the invariant and whose functions
    contain no colon (as the five known functions), the shorthand, under
    which [apply] registers the aggregation, identifies the function and
    the field name: equal shorthands mean the same function and the same
    field name. *)
Theorem toString_inj (e e' : AggregateExpression) :
  invariant e → invariant e' →
  JsString.contains colon (fn e) = false →
  JsString.contains colon (fn e') = false →
  AggregateExpression.toString e = AggregateExpression.toString e' →
  same_expression e e'.
Proof.
  destruct e as [x o], e' as [x' o']. unfold invariant, same_expression; simpl.
  intros [Hsome Hnone] [Hsome' Hnone'] Hx Hx'.
  unfold AggregateExpression.toString, AggregateExpression.field_prop; simpl.
  destruct (decide (x = COUNT)) as [->|Hne];
    destruct (decide (x' = COUNT)) as [->|Hne'].
  - intros _. by rewrite (Hnone eq_refl), (Hnone' eq_refl).
  - rewrite (bool_decide_eq_false_2 _ Hne').
    destruct (Hsome' Hne') as [f' ->]. simpl. intros [= Heq].
    apply (f_equal (JsString.split colon)) in Heq.
    change (":" +:+ name f') with (String colon (name f')) in Heq.
    rewrite (split_at_first_sep _ _ _ Hx') in Heq. discriminate Heq.
  - rewrite (bool_decide_eq_false_2 _ Hne).
    destruct (Hsome Hne) as [f ->]. simpl. intros [= Heq].
    apply (f_equal (JsString.split colon)) in Heq.
    change (":" +:+ name f) with (String colon (name f)) in Heq.
    rewrite (split_at_first_sep _ _ _ Hx) in Heq. discriminate Heq.
  - rewrite (bool_decide_eq_false_2 _ Hne), (bool_decide_eq_false_2 _ Hne').
    destruct (Hsome Hne) as [f ->], (Hsome' Hne') as [f' ->]. simpl.
    intros [= Heq].
    pose proof (f_equal (JsString.split colon) Heq) as Hsplit.
    change (":" +:+ name f) with (String colon (name f)) in Hsplit.
    change (":" +:+ name f') with (String colon (name f')) in Hsplit.
    rewrite (split_at_first_sep _ _ _ Hx), (split_at_first_sep _ _ _ Hx')
      in Hsplit.
    injection Hsplit as -> _.
    apply append_inj_r in Heq. injection Heq as Hname.
    change (name f = name f') in Hname. by rewrite Hname.
Qed.

(** Two [sum] expressions on fields named "amt" that differ otherwise. *)
Lemma toString_inj_witness :
  same_expression (AggregateExpression.sum amt)
    (new "sum" (Some (mkField "amt" "Other label" "date"))).
Proof.
  apply toString_inj.
  - split; [by eauto|done].
  - split; [by eauto|done].
  - reflexivity.
  - reflexivity.
  - reflexivity.
Defined.

(** ** [parse] and the field collection *)

(** X10. "count" parses to the count expression whatever the fields are.
    With no field at all it is the only string [parse] accepts: any other
    string that is not empty is refused with the error naming it and the
    list [["count"]]. The empty string is refused as empty, whatever the
    fields are. *)
Theorem parse_count_and_no_fields :
  (∀ fields, AggregateExpression.parse fields "count"
             = Ok AggregateExpression.count)
  ∧ (∀ s, s ≠ "count" → s ≠ "" →
          AggregateExpression.parse [] s = Throw (ValidationError s ["count"]))
  ∧ (∀ fields, AggregateExpression.parse fields ""
               = Throw ValidationError_empty).
Proof.
  split_and!.
  - intros fields. unfold AggregateExpression.parse, joi.assert_string_valid.
    rewrite bool_decide_eq_true_2; [done|]. apply elem_of_valids. by left.
  - intros s Hs Hne. unfold AggregateExpression.parse, joi.assert_string_valid.
    change (internals.valids []) with ["count"].
    rewrite bool_decide_eq_false_2 by (by rewrite list_elem_of_singleton).
    by rewrite bool_decide_eq_false_2.
  - intros fields. unfold AggregateExpression.parse, joi.assert_string_valid.
    by rewrite bool_decide_eq_false_2 by apply empty_not_valid.
Qed.

(** X11. Adding fields never invalidates a shorthand: when every field of
    [F] is also in [G], every valid shorthand of [F] is one of [G], and
    what [parse] accepts against [F] it accepts against [G]. *)
Theorem parse_accepts_monotone (F G : list Field) (s : string) :
  F ⊆ G →
  (s ∈ internals.valids F → s ∈ internals.valids G)
  ∧ (is_Ok (AggregateExpression.parse F s)
     → is_Ok (AggregateExpression.parse G s)).
Proof.
  intros Hsub.
  assert (s ∈ internals.valids F → s ∈ internals.valids G) as Hmono.
  { rewrite !elem_of_valids. intros [->|(f & Hf & Hs)]; [by left|right].
    exists f. split; [by apply Hsub|done]. }
  split; [done|]. rewrite !parse_Ok_iff. done.
Qed.

(** From the field [created] alone to [amt], [created]. *)
Lemma parse_accepts_monotone_witness :
  ("max:created" ∈ internals.valids [created]
   → "max:created" ∈ internals.valids [amt; created])
  ∧ (is_Ok (AggregateExpression.parse [created] "max:created")
     → is_Ok (AggregateExpression.parse [amt; created] "max:created")).
Proof.
  apply (parse_accepts_monotone [created] [amt; created] "max:created").
  intros f Hf. apply list_elem_of_singleton in Hf as ->. compute_done.
Defined.

(** X12. The valid shorthands of two collections put one after the other
    are those of the first followed by those of the second without its
    leading "count". *)
Theorem valids_app (F G : list Field) :
  internals.valids (F ++ G)
  = internals.valids F ++ drop 1 (internals.valids G).
Proof.
  rewrite !valids_eq_spec. unfold validShorthands_spec. simpl.
  by rewrite bind_app.
Qed.

(** ** [parse], then [apply] *)

(** X13. Applying what [parse] returned for a shorthand [s] other than
    "count", when no field name contains a colon: on any builder, the
    aggregation is registered and ordered under the name [s] itself, on the
    field named in [s], and the mapper reads the metric value of name
    [s]. *)
Theorem apply_parsed (fields : list Field) (s : string)
    (e : AggregateExpression) :
  colon_free_names fields →
  AggregateExpression.parse fields s = Ok e → s ≠ "count" →
  ∃ f, f ∈ fields ∧ field e = Some f ∧ s = fn e +:+ ":" +:+ name f
    ∧ ∀ S (B : Aggregation.Builder S) agg mapper (st : S),
        AggregateExpression.apply e agg mapper st
        = (r ← Aggregation.aggregation agg s (mkMetricSpec (fn e) (name f));
           r ← Aggregation.configure r (mkConfig [(s, "desc")]);
           _ ← Aggregation.mapper r
                 (Aggregation.bucketMapper
                    (λ b v, mapper_or_default mapper (key b)
                              (metric_value v s)));
           mret agg) st.
Proof.
  intros Hcolon [Hin ->]%parse_Ok_inv Hs.
  apply elem_of_valids in Hin as [->|(f & Hf & Hin)]; [done|].
  apply elem_of_shorthands_of in Hin as (x & -> & Hx).
  rewrite (split_shorthand x (name f) _ Hx).
  rewrite (split_no_sep _ _ (colon_free_name _ _ Hcolon Hf)). simpl.
  destruct (find_by_name_elem_of fields f Hf) as (f' & Hfind & Hname & Hf').
  simpl in Hfind. rewrite Hfind.
  destruct (allowed_on_fn _ _ Hx) as [Hcount _].
  exists f'. rewrite Hname. split_and!; [done..|].
  intros S B agg mapper st.
  rewrite apply_calls_metric by done. by rewrite Hname.
Qed.

(** "avg:amt" parsed against [amt], [created], then applied. *)
Lemma apply_parsed_witness :
  ∃ f, f ∈ [amt; created]
    ∧ field (AggregateExpression.avg amt) = Some f
    ∧ "avg:amt" = fn (AggregateExpression.avg amt) +:+ ":" +:+ name f
    ∧ ∀ S (B : Aggregation.Builder S) agg mapper (st : S),
        AggregateExpression.apply (AggregateExpression.avg amt) agg mapper st
        = (r ← Aggregation.aggregation agg "avg:amt"
                 (mkMetricSpec (fn (AggregateExpression.avg amt)) (name f));
           r ← Aggregation.configure r (mkConfig [("avg:amt", "desc")]);
           _ ← Aggregation.mapper r
                 (Aggregation.bucketMapper
                    (λ b v, mapper_or_default mapper (key b)
                              (metric_value v "avg:amt")));
           mret agg) st.
Proof.
  apply (apply_parsed [amt; created] "avg:amt").
  - unfold colon_free_names. by repeat constructor.
  - reflexivity.
  - done.
Defined.
